(** * The move state-change journal of infinitechess.org (state.ts)

    A shallow embedding of the script that "creates, queues, and applies
    gamefile states to the gamefile when a Move is created, and executed",
    and the properties of its factories ([createCheckState],
    [createAttackersState], [createEnPassantState],
    [createSpecialRightsState], [createMoveRuleState]) and of its replay
    engine ([applyState], [applyMove]).

    Modelling conventions.
    - The gamefile is a mutable JS object: every function that writes to it
      takes the gamefile and returns the updated one (state passing).
    - A [Move] owns its [MoveState]; the factories that push to (or
      overwrite inside) [move.state] return the updated move.
    - [EnPassant] values are JS objects, compared by [===], that is by
      identity.  An en-passant value is therefore a reference into a heap of
      [EnPassant] objects; [undefined] is [None].
    - [gamefile.specialRights] is a JS [Set] of coordinate keys, used only
      through [add] and [delete]: a [gset] of strings.
    - [delete gamefile.enpassant] leaves the property absent, which reads
      as [undefined]: the en-passant value becomes [None].
    - [number]s (coordinates, the move-rule counter) are integers here.
    - [applyMove] takes [globalChange] as a plain boolean; a call without
      the options object is a call with [false]. *)

From stdpp Require Import gmap strings list.

Local Open Scope Z_scope.

(** ** Type definitions *)

(** [Coords] is a pair of numbers, [CoordsKey] the string ["x,y"]. *)
Definition Coords : Type := Z * Z.
Abbreviation CoordsKey := string.

(** [type inCheck = false | Coords[]] *)
Inductive inCheck : Type :=
  | InCheckFalse
  | InCheckCoords (royals : list Coords).

(** The contents of an [EnPassant] object. *)
Record EnPassant : Type := mkEnPassant {
  square : Coords;
  pawn : Coords
}.

(** A reference to an [EnPassant] object; [===] on two such values is
    equality of references. *)
Abbreviation EnPassantRef := positive.

(** Optional en-passant value ([current?: EnPassant]). *)
Abbreviation EnPassantValue := (option EnPassantRef).

(** The [===] of the source on the values the global factories compare. *)
Definition strict_eq {A} `{EqDecision A} (x y : A) : bool := bool_decide (x = y).

Section Journal.

(** [path] is imported from movepiece.js, and [gamefile] and [Move] are
    declared outside this script: the parts of them the script never
    names are kept abstract. *)
Context {path : Type} {GamefileRest : Type} {MoveRest : Type}.

(** [type attacker = { coords } & ({ slidingCheck: true }
                                | { slidingCheck: false, path?: path })] *)
Inductive attacker : Type :=
  | SlidingAttacker (coords : Coords)
  | NonSlidingAttacker (coords : Coords) (path_ : option path).

Definition attackers : Type := list attacker.

(** [type StateChange]: a tagged union over the five kinds. *)
Inductive StateChange : Type :=
  | SCcheck (current future : inCheck)
  | SCattackers (current future : attackers)
  | SCenpassant (current future : EnPassantValue)
  | SCspecialrights (current future : bool) (coordsKey : CoordsKey)
  | SCmoverulestate (current future : Z).

(** [interface MoveState] *)
Record MoveState : Type := mkMoveState {
  local : list StateChange;
  global : list StateChange
}.

(** A [Move] (or [NullMove]): the script only touches [move.state]. *)
Record Move : Type := mkMove {
  state : MoveState;
  move_rest : MoveRest
}.

(** The gamefile: the five properties the script writes, and the rest. *)
Record gamefile : Type := mkGamefile {
  gf_inCheck : inCheck;
  gf_attackers : attackers;
  gf_enpassant : EnPassantValue;
  gf_specialRights : gset CoordsKey;
  gf_moveRuleState : Z;
  gf_rest : GamefileRest
}.

(** *** Field assignments *)

Definition set_inCheck (gf : gamefile) (v : inCheck) : gamefile :=
  mkGamefile v (gf_attackers gf) (gf_enpassant gf) (gf_specialRights gf)
             (gf_moveRuleState gf) (gf_rest gf).

Definition set_attackers (gf : gamefile) (v : attackers) : gamefile :=
  mkGamefile (gf_inCheck gf) v (gf_enpassant gf) (gf_specialRights gf)
             (gf_moveRuleState gf) (gf_rest gf).

Definition set_enpassant (gf : gamefile) (v : EnPassantValue) : gamefile :=
  mkGamefile (gf_inCheck gf) (gf_attackers gf) v (gf_specialRights gf)
             (gf_moveRuleState gf) (gf_rest gf).

Definition set_specialRights (gf : gamefile) (v : gset CoordsKey) : gamefile :=
  mkGamefile (gf_inCheck gf) (gf_attackers gf) (gf_enpassant gf) v
             (gf_moveRuleState gf) (gf_rest gf).

Definition set_moveRuleState (gf : gamefile) (v : Z) : gamefile :=
  mkGamefile (gf_inCheck gf) (gf_attackers gf) (gf_enpassant gf)
             (gf_specialRights gf) v (gf_rest gf).

(** [move.state.local.push(c)] and [move.state.global.push(c)] *)
Definition push_local (move : Move) (c : StateChange) : Move :=
  mkMove (mkMoveState (local (state move) ++ [c]) (global (state move)))
         (move_rest move).

Definition push_global (move : Move) (c : StateChange) : Move :=
  mkMove (mkMoveState (local (state move)) (global (state move) ++ [c]))
         (move_rest move).

Definition with_global (move : Move) (g : list StateChange) : Move :=
  mkMove (mkMoveState (local (state move)) g) (move_rest move).

(** ** Applying state changes *)

(** [(forward ? state.future : state.current) === undefined].  Only the
    enpassant kind declares [current?] and [future?]; the values of the
    other kinds are never [undefined]. *)
Definition noNewValue (change : StateChange) (forward : bool) : bool :=
  match change with
  | SCenpassant current future =>
      bool_decide ((if forward then future else current) = None)
  | _ => false
  end.

(** [function applyState(gamefile, state, forward)] *)
Definition applyState (gf : gamefile) (change : StateChange) (forward : bool)
  : gamefile :=
  match change with
  | SCspecialrights current future coordsKey =>
      if negb (if forward then future else current)
      then set_specialRights gf (gf_specialRights gf ∖ {[coordsKey]})
      else set_specialRights gf ({[coordsKey]} ∪ gf_specialRights gf)
  | SCcheck current future =>
      set_inCheck gf (if forward then future else current)
  | SCattackers current future =>
      if noNewValue change forward then set_attackers gf []
      else set_attackers gf (if forward then future else current)
  | SCenpassant current future =>
      if noNewValue change forward then set_enpassant gf None
      else set_enpassant gf (if forward then future else current)
  | SCmoverulestate current future =>
      set_moveRuleState gf (if forward then future else current)
  end.

(** [for (const x of arr) body]: the array is visited from index 0 on. *)
Fixpoint for_of {A S : Type} (arr : list A) (body : S → A → S) (s : S) : S :=
  match arr with
  | [] => s
  | x :: rest => for_of rest body (body s x)
  end.

(** The two loops of [applyMove], over any per-record action. *)
Definition applyMove_loops {S : Type} (apply : S → StateChange → bool → S)
    (s : S) (move : Move) (forward globalChange : bool) : S :=
  let s := for_of (local (state move)) (λ s change, apply s change forward) s in
  if negb globalChange then s
  else for_of (global (state move)) (λ s change, apply s change forward) s.

(** [function applyMove(gamefile, move, forward, { globalChange = false })] *)
Definition applyMove (gf : gamefile) (move : Move)
    (forward globalChange : bool) : gamefile :=
  applyMove_loops applyState gf move forward globalChange.

(** The sequence of [applyState] calls [applyMove] makes: the same loops,
    with the action replaced by a log of its arguments. *)
Definition applyMove_calls (move : Move) (forward globalChange : bool)
  : list (StateChange * bool) :=
  applyMove_loops (λ log change fwd, log ++ [(change, fwd)]) [] move
                  forward globalChange.

(** ** Creating local state changes *)

(** [function createCheckState(move, current, future, gamefile)] *)
Definition createCheckState (move : Move) (current future : inCheck)
    (gf : gamefile) : Move * gamefile :=
  let newStateChange := SCcheck current future in
  (push_local move newStateChange, applyState gf newStateChange true).

(** [function createAttackersState(move, current, future, gamefile)] *)
Definition createAttackersState (move : Move) (current future : attackers)
    (gf : gamefile) : Move * gamefile :=
  let newStateChange := SCattackers current future in
  (push_local move newStateChange, applyState gf newStateChange true).

(** ** Creating global state changes *)

(** [state.type === 'enpassant'] *)
Definition is_enpassant (change : StateChange) : bool :=
  match change with SCenpassant _ _ => true | _ => false end.

(** [preExistingEnPassantState.future = future] *)
Definition assign_future (change : StateChange) (future : EnPassantValue)
  : StateChange :=
  match change with
  | SCenpassant current _ => SCenpassant current future
  | other => other
  end.

(** [function createEnPassantState(move, current?, future?)] *)
Definition createEnPassantState (move : Move)
    (current future : EnPassantValue) : Move :=
  if strict_eq current future then move
  else
    let newStateChange := SCenpassant current future in
    match list_find (λ c, is_enpassant c = true) (global (state move)) with
    | Some (i, preExistingEnPassantState) =>
        with_global move
          (<[i := assign_future preExistingEnPassantState future]>
             (global (state move)))
    | None => push_global move newStateChange
    end.

(** [function createSpecialRightsState(move, coordsKey, current, future)] *)
Definition createSpecialRightsState (move : Move) (coordsKey : CoordsKey)
    (current future : bool) : Move :=
  if strict_eq current future then move
  else push_global move (SCspecialrights current future coordsKey).

(** [function createMoveRuleState(move, current, future)] *)
Definition createMoveRuleState (move : Move) (current future : Z) : Move :=
  if strict_eq current future then move
  else push_global move (SCmoverulestate current future).

(** ** Populating a move *)

(** One call of a factory, as move-construction code makes it. *)
Inductive FactoryCall : Type :=
  | CreateCheck (current future : inCheck)
  | CreateAttackers (current future : attackers)
  | CreateEnPassant (current future : EnPassantValue)
  | CreateSpecialRights (coordsKey : CoordsKey) (current future : bool)
  | CreateMoveRule (current future : Z).

(** The effect of one call on the move and on the gamefile: the local
    factories write to both, the global ones to the move only. *)
Definition run_call (st : Move * gamefile) (call : FactoryCall)
  : Move * gamefile :=
  let '(move, gf) := st in
  match call with
  | CreateCheck current future => createCheckState move current future gf
  | CreateAttackers current future =>
      createAttackersState move current future gf
  | CreateEnPassant current future =>
      (createEnPassantState move current future, gf)
  | CreateSpecialRights coordsKey current future =>
      (createSpecialRightsState move coordsKey current future, gf)
  | CreateMoveRule current future =>
      (createMoveRuleState move current future, gf)
  end.

Definition run_calls (calls : list FactoryCall) (st : Move * gamefile)
  : Move * gamefile :=
  foldl run_call st calls.

(** A move as it is generated: no record yet. *)
Definition fresh (move : Move) : Prop :=
  local (state move) = [] ∧ global (state move) = [].

(** ** Vocabulary of the properties *)

(** What a record writes to: one of the five properties of the gamefile,
    the membership of one key for a specialrights record.  [SlotRest] is
    everything else in the gamefile. *)
Inductive Slot : Type :=
  | SlotInCheck
  | SlotAttackers
  | SlotEnPassant
  | SlotRight (coordsKey : CoordsKey)
  | SlotMoveRule
  | SlotRest.

Global Instance Slot_eq_dec : EqDecision Slot.
Proof. solve_decision. Defined.

Definition slot_of (change : StateChange) : Slot :=
  match change with
  | SCcheck _ _ => SlotInCheck
  | SCattackers _ _ => SlotAttackers
  | SCenpassant _ _ => SlotEnPassant
  | SCspecialrights _ _ coordsKey => SlotRight coordsKey
  | SCmoverulestate _ _ => SlotMoveRule
  end.

(** Two gamefiles hold the same thing in a slot. *)
Definition slot_agree (x : Slot) (a b : gamefile) : Prop :=
  match x with
  | SlotInCheck => gf_inCheck a = gf_inCheck b
  | SlotAttackers => gf_attackers a = gf_attackers b
  | SlotEnPassant => gf_enpassant a = gf_enpassant b
  | SlotRight k => k ∈ gf_specialRights a ↔ k ∈ gf_specialRights b
  | SlotMoveRule => gf_moveRuleState a = gf_moveRuleState b
  | SlotRest => gf_rest a = gf_rest b
  end.

(** The [current] of a record is what the gamefile [S0] holds. *)
Definition record_matches (S0 : gamefile) (change : StateChange) : Prop :=
  match change with
  | SCcheck current _ => current = gf_inCheck S0
  | SCattackers current _ => current = gf_attackers S0
  | SCenpassant current _ => current = gf_enpassant S0
  | SCspecialrights current _ coordsKey =>
      current = bool_decide (coordsKey ∈ gf_specialRights S0)
  | SCmoverulestate current _ => current = gf_moveRuleState S0
  end.

(** The [current] argument of a factory call is what [S0] holds. *)
Definition call_matches (S0 : gamefile) (call : FactoryCall) : Prop :=
  match call with
  | CreateCheck current _ => current = gf_inCheck S0
  | CreateAttackers current _ => current = gf_attackers S0
  | CreateEnPassant current _ => current = gf_enpassant S0
  | CreateSpecialRights coordsKey current _ =>
      current = bool_decide (coordsKey ∈ gf_specialRights S0)
  | CreateMoveRule current _ => current = gf_moveRuleState S0
  end.

(** Local kinds are check and attackers. *)
Definition is_check (change : StateChange) : bool :=
  match change with SCcheck _ _ => true | _ => false end.

Definition is_attackers (change : StateChange) : bool :=
  match change with SCattackers _ _ => true | _ => false end.

Definition local_kind (change : StateChange) : bool :=
  is_check change || is_attackers change.

(** The en-passant records of a sequence, in order. *)
Definition enpassant_records (l : list StateChange) : list StateChange :=
  filter (λ c, is_enpassant c = true) l.

(** Replaying a list of calls to [applyState], first to last. *)
Definition replay (gf : gamefile) (calls : list (StateChange * bool))
  : gamefile :=
  foldl (λ gf call, applyState gf call.1 call.2) gf calls.

(** All the records of a move, in the order [applyMove] visits them when
    [globalChange] is set. *)
Definition records (move : Move) : list StateChange :=
  local (state move) ++ global (state move).

(** A move under construction and the gamefile it is constructed against
    are consistent with the pre-move gamefile [S0]: every record remembers
    as [current] what [S0] holds, and the gamefile differs from [S0] at most
    in the slots of the records. *)
Definition consistent_with (S0 : gamefile) (st : Move * gamefile) : Prop :=
  Forall (record_matches S0) (records st.1)
  ∧ ∀ x, x ∉ slot_of <$> records st.1 → slot_agree x st.2 S0.


(** *** What a sequence of factory calls asks for *)

(** Global kinds are enpassant, specialrights and moverulestate. *)
Definition global_kind (change : StateChange) : bool :=
  match change with
  | SCenpassant _ _ | SCspecialrights _ _ _ | SCmoverulestate _ _ => true
  | _ => false
  end.

(** The record a call to a local factory pushes. *)
Definition local_record_of (call : FactoryCall) : option StateChange :=
  match call with
  | CreateCheck current future => Some (SCcheck current future)
  | CreateAttackers current future => Some (SCattackers current future)
  | _ => None
  end.

(** The record a call to [createSpecialRightsState] or
    [createMoveRuleState] pushes, if the call is not skipped. *)
Definition plain_global_record_of (call : FactoryCall) : option StateChange :=
  match call with
  | CreateSpecialRights coordsKey current future =>
      if strict_eq current future then None
      else Some (SCspecialrights current future coordsKey)
  | CreateMoveRule current future =>
      if strict_eq current future then None
      else Some (SCmoverulestate current future)
  | _ => None
  end.

(** The en-passant change a call to [createEnPassantState] records, if
    the call is not skipped. *)
Definition enpassant_change_of (call : FactoryCall)
  : option (EnPassantValue * EnPassantValue) :=
  match call with
  | CreateEnPassant current future =>
      if strict_eq current future then None else Some (current, future)
  | _ => None
  end.

(** What one more recorded en-passant change makes of the enpassant
    records of a move. *)
Definition coalesce (E : list StateChange)
    (change : EnPassantValue * EnPassantValue) : list StateChange :=
  match E with
  | [] => [SCenpassant change.1 change.2]
  | pre :: rest => assign_future pre change.2 :: rest
  end.

(** The [future] of a record is what the gamefile [S1] holds. *)
Definition future_matches (S1 : gamefile) (change : StateChange) : Prop :=
  match change with
  | SCcheck _ future => future = gf_inCheck S1
  | SCattackers _ future => future = gf_attackers S1
  | SCenpassant _ future => future = gf_enpassant S1
  | SCspecialrights _ future coordsKey =>
      future = bool_decide (coordsKey ∈ gf_specialRights S1)
  | SCmoverulestate _ future => future = gf_moveRuleState S1
  end.


End Journal.

Arguments attacker : clear implicits.
Arguments attackers : clear implicits.
Arguments StateChange : clear implicits.
Arguments MoveState : clear implicits.
Arguments Move : clear implicits.
Arguments gamefile : clear implicits.
Arguments FactoryCall : clear implicits.

(** What an optional en-passant value denotes in a heap of [EnPassant]
    objects: the object's contents, or nothing for [undefined]. *)
Definition deref (heap : gmap EnPassantRef EnPassant) (v : EnPassantValue)
  : option EnPassant :=
  match v with
  | Some r => heap !! r
  | None => None
  end.

(** ** The direction helpers of the arrows script

    The script that renders the arrows pointing to pieces off-screen
    classifies the direction [[dx,dy]] of a slide line.  Directions are
    integer steps.  (Negating a zero gives [-0] in the source; it prints as
    ["0"] and is [=== 0], so it is the integer 0 here.) *)

(** [function absoluteValueOfDirection(direction)] *)
Definition absoluteValueOfDirection (direction : Coords) : Coords :=
  let '(dx, dy) := direction in
  if (dx <? 0) || ((dx =? 0) && (dy <? 0))
  then (dx * -1, dy * -1)
  else (dx, dy).

(** [function isDirectionHippogonal(direction)] *)
Definition isDirectionHippogonal (direction : Coords) : bool :=
  let '(dx, dy) := direction in
  if (dx =? 0) || (dy =? 0) then false
  else if (Z.abs dx >? 1) || (Z.abs dy >? 1) then true
  else false.

(** The opposite direction, [[-dx,-dy]], as [iterateThroughDiagLine] builds
    it for the arrows on the left. *)
Definition oppositeDirection (direction : Coords) : Coords :=
  (- direction.1, - direction.2).

Section PieceMovesets.

(** [legalmoves.getPieceMoveset(game.getGamefile(), type)] and
    [math.getKeyFromCoords] live in other scripts: they are taken as they
    are called.  Of a moveset the script reads [sliding] only, an object
    keyed by the keys of the slide directions, or [undefined]. *)
Context {SlideLimit : Type}.

Record Moveset : Type := mkMoveset {
  sliding : option (gmap string SlideLimit)
}.

Context (getPieceMoveset : string → Moveset).
Context (getKeyFromCoords : Coords → string).

(** [function doesTypeHaveDirection(type, direction)] *)
Definition doesTypeHaveDirection (type : string) (direction : Coords) : bool :=
  let moveset := getPieceMoveset type in
  match sliding moveset with
  | None => false
  | Some slides =>
      let absoluteDirection := absoluteValueOfDirection direction in
      let key := getKeyFromCoords absoluteDirection in
      bool_decide (key ∈ dom slides)
  end.

End PieceMovesets.

Arguments Moveset : clear implicits.


(** ** Concrete data *)

Module Sample.

Definition TMove : Type := Move unit unit.
Definition TGamefile : Type := gamefile unit unit.
Definition TChange : Type := StateChange unit.

(** A freshly generated move. *)
Definition move0 : TMove := mkMove (mkMoveState [] []) tt.

(** Two distinct objects [{ square: [3,6], pawn: [3,5] }]. *)
Definition heap0 : gmap EnPassantRef EnPassant :=
  <[1%positive := mkEnPassant (3, 6) (3, 5)]>
    (<[2%positive := mkEnPassant (3, 6) (3, 5)]> ∅).

(** A third object, [{ square: [7,3], pawn: [7,4] }]. *)
Definition heap1 : gmap EnPassantRef EnPassant :=
  <[3%positive := mkEnPassant (7, 3) (7, 4)]> heap0.

(** A position with the right of square "5,1" set and a counter of 3. *)
Definition gf0 : TGamefile :=
  mkGamefile InCheckFalse [] None {["5,1"%string]} 3 tt.

(** A move on which an en-passant change was already recorded. *)
Definition move_with_enpassant : TMove :=
  createEnPassantState move0 None (Some 2%positive).

(** A move with local and global records. *)
Definition move_both : TMove :=
  mkMove (mkMoveState
            [SCcheck InCheckFalse (InCheckCoords [(4, 5)]);
             SCattackers [] [SlidingAttacker (4, 8)]]
            [SCenpassant None (Some 1%positive);
             SCspecialrights true false "5,1"%string;
             SCmoverulestate 3 0]) tt.

(** The factory calls of a move that gives check, pushes a pawn two
    squares, gives up the right of square "5,1" and resets the counter,
    made against [gf0]. *)
Definition calls0 : list (FactoryCall unit) :=
  [CreateCheck InCheckFalse (InCheckCoords [(4, 5)]);
   CreateAttackers [] [SlidingAttacker (4, 8)];
   CreateEnPassant None (Some 1%positive);
   CreateSpecialRights "5,1"%string true false;
   CreateMoveRule 3 0].

(** Two check calls in one move, the second made with the check indicator
    the first one left in the gamefile. *)
Definition calls_chained : list (FactoryCall unit) :=
  [CreateCheck InCheckFalse (InCheckCoords [(4, 5)]);
   CreateCheck (InCheckCoords [(4, 5)]) (InCheckCoords [(0, 0)])].

(** The calls of [calls0] with the en-passant change recorded in two
    steps, the second one from the value the first one announced. *)
Definition calls_merged : list (FactoryCall unit) :=
  [CreateCheck InCheckFalse (InCheckCoords [(4, 5)]);
   CreateAttackers [] [SlidingAttacker (4, 8)];
   CreateEnPassant None (Some 1%positive);
   CreateEnPassant (Some 1%positive) (Some 2%positive);
   CreateSpecialRights "5,1"%string true false;
   CreateMoveRule 3 0].

(** Two counter changes recorded on one move, both from the counter of
    [gf0], to different values. *)
Definition calls_counter_twice : list (FactoryCall unit) :=
  [CreateMoveRule 3 0; CreateMoveRule 3 1].

End Sample.

(** ** Properties *)

Section JournalFacts.

Context {path : Type} {GamefileRest : Type} {MoveRest : Type}.

Local Abbreviation Move := (Move path MoveRest).
Local Abbreviation gamefile := (gamefile path GamefileRest).
Local Abbreviation StateChange := (StateChange path).
Local Abbreviation FactoryCall := (FactoryCall path).

Implicit Types (gf : gamefile) (move : Move) (change c : StateChange).
Implicit Types (l : list StateChange) (x : Slot).

(** *** The loops *)

Lemma for_of_foldl {A S : Type} (arr : list A) (body : S → A → S) (s : S) :
  for_of arr body s = foldl body s arr.
Proof. revert s. induction arr as [|a arr IH]; intros s; simpl; auto. Qed.

Lemma for_of_app {A S : Type} (xs ys : list A) (body : S → A → S) (s : S) :
  for_of (xs ++ ys) body s = for_of ys body (for_of xs body s).
Proof. revert s. induction xs as [|a xs IH]; intros s; simpl; auto. Qed.

Lemma for_of_log {A B : Type} (f : A → B) (arr : list A) (log : list B) :
  for_of arr (λ log a, log ++ [f a]) log = log ++ map f arr.
Proof.
  revert log. induction arr as [|a arr IH]; intros log; simpl.
  - by rewrite app_nil_r.
  - rewrite IH. by rewrite <- app_assoc.
Qed.

Lemma replay_map gf l (forward : bool) :
  replay gf (map (λ c, (c, forward)) l)
  = for_of l (λ gf c, applyState gf c forward) gf.
Proof.
  unfold replay. revert gf.
  induction l as [|c l IH]; intros gf; simpl; auto.
Qed.

Lemma applyMove_global gf move (forward : bool) :
  applyMove gf move forward true
  = for_of (local (state move) ++ global (state move))
           (λ gf c, applyState gf c forward) gf.
Proof. unfold applyMove, applyMove_loops. simpl. by rewrite for_of_app. Qed.

Lemma applyMove_local gf move (forward : bool) :
  applyMove gf move forward false
  = for_of (local (state move)) (λ gf c, applyState gf c forward) gf.
Proof. reflexivity. Qed.

(** *** Slots *)

Lemma slot_agree_refl x gf : slot_agree x gf gf.
Proof. destruct x; simpl; auto. Qed.

Lemma slot_agree_trans x (a b c : gamefile) :
  slot_agree x a b → slot_agree x b c → slot_agree x a c.
Proof. destruct x; simpl; try congruence. tauto. Qed.

(** A gamefile is determined by its slots. *)
Lemma gamefile_ext (a b : gamefile) : (∀ x, slot_agree x a b) → a = b.
Proof.
  intros H. destruct a as [a1 a2 a3 a4 a5 a6], b as [b1 b2 b3 b4 b5 b6].
  pose proof (H SlotInCheck) as H1. pose proof (H SlotAttackers) as H2.
  pose proof (H SlotEnPassant) as H3. pose proof (H SlotMoveRule) as H5.
  pose proof (H SlotRest) as H6. simpl in *. subst.
  assert (a4 = b4) as ->; [|done].
  apply set_eq. intros k. apply (H (SlotRight k)).
Qed.

(** [applyState] leaves alone every slot but the one of its record. *)
Lemma applyState_other_slot gf change (forward : bool) x :
  x ≠ slot_of change → slot_agree x (applyState gf change forward) gf.
Proof.
  intros Hx.
  destruct change as [c f|c f|c f|c f k|c f]; simpl;
    repeat case_match; destruct x as [| | |k'| |]; simpl in *; try done.
  all: assert (k' ≠ k) as Hk by congruence.
  all: first [rewrite elem_of_difference | rewrite elem_of_union].
  all: rewrite elem_of_singleton; tauto.
Qed.

(** Backward, [applyState] puts back what a matching record remembers. *)
Lemma applyState_backward_slot (S0 : gamefile) gf change :
  record_matches S0 change →
  slot_agree (slot_of change) (applyState gf change false) S0.
Proof.
  destruct change as [c f|c f|c f|c f k|c f]; simpl; intros ->; try done.
  - by case_bool_decide.
  - case_bool_decide as Hk; simpl.
    + rewrite elem_of_union, elem_of_singleton. tauto.
    + rewrite elem_of_difference, elem_of_singleton. tauto.
Qed.

(** A loop of [applyState] leaves alone every slot none of its records
    has. *)
Lemma for_of_other_slots l gf (forward : bool) x :
  x ∉ slot_of <$> l →
  slot_agree x (for_of l (λ g c, applyState g c forward) gf) gf.
Proof.
  revert gf. induction l as [|c l IH]; intros gf Hx; simpl.
  - apply slot_agree_refl.
  - rewrite fmap_cons, not_elem_of_cons in Hx. destruct Hx as [Hc Hl].
    eapply slot_agree_trans; [by apply IH|].
    by apply applyState_other_slot.
Qed.

Lemma slot_rest_not_written l : SlotRest ∉ slot_of <$> l.
Proof.
  intros ([] & ? & _)%list_elem_of_fmap; discriminate.
Qed.

(** A backward loop over records that match [S0] puts the slots of its
    records back to what [S0] holds. *)
Lemma for_of_backward_restores (S0 : gamefile) l :
  Forall (record_matches S0) l →
  ∀ gf x, x ∈ slot_of <$> l ∨ slot_agree x gf S0 →
    slot_agree x (for_of l (λ g c, applyState g c false) gf) S0.
Proof.
  induction 1 as [|c l Hc Hl IH]; intros gf x Hx; simpl.
  - destruct Hx as [Hx|Hx]; [|done]. by apply elem_of_nil in Hx.
  - apply IH.
    destruct (decide (x = slot_of c)) as [->|Hne].
    + right. by apply applyState_backward_slot.
    + destruct Hx as [Hx|Hx].
      * rewrite fmap_cons, elem_of_cons in Hx. destruct Hx; [done|by left].
      * right. eapply slot_agree_trans; [|exact Hx].
        by apply applyState_other_slot.
Qed.

(** *** The replay engine *)

(** C6. For either value of [forward], [applyMove] calls [applyState] on
    the records of [move.state.local] in insertion order and then, when
    [globalChange] is set, on those of [move.state.global] in insertion
    order; its result is the replay of exactly these calls, and the order of
    the records is the same backward as forward. *)
Theorem applyMove_insertion_order gf move (forward globalChange : bool) :
  applyMove_calls move forward globalChange
  = map (λ c, (c, forward))
        (local (state move)
         ++ (if globalChange then global (state move) else []))
  ∧ applyMove gf move forward globalChange
    = replay gf (applyMove_calls move forward globalChange)
  ∧ map fst (applyMove_calls move false globalChange)
    = map fst (applyMove_calls move true globalChange).
Proof.
  assert (∀ fwd : bool,
    applyMove_calls move fwd globalChange
    = map (λ c, (c, fwd))
          (local (state move)
           ++ (if globalChange then global (state move) else []))) as Hcalls.
  { intros fwd. unfold applyMove_calls, applyMove_loops.
    destruct globalChange; simpl.
    - rewrite !for_of_log. simpl. by rewrite map_app.
    - rewrite for_of_log. simpl. by rewrite app_nil_r. }
  split; [apply Hcalls|]. split.
  - rewrite Hcalls, replay_map.
    destruct globalChange.
    + apply applyMove_global.
    + rewrite app_nil_r. apply applyMove_local.
  - rewrite !Hcalls, !map_map. reflexivity.
Qed.

(** C8. A specialrights record with current [true] and future [false] for
    the key [K]: applied forward it deletes [K] from the special-rights set,
    applied backward it adds [K] to the set. *)
Theorem specialrights_removed_then_restored gf (K : CoordsKey) :
  gf_specialRights (applyState gf (SCspecialrights true false K) true)
  = gf_specialRights gf ∖ {[K]}
  ∧ (K ∉ gf_specialRights (applyState gf (SCspecialrights true false K) true))
  ∧ gf_specialRights (applyState gf (SCspecialrights true false K) false)
    = {[K]} ∪ gf_specialRights gf
  ∧ K ∈ gf_specialRights (applyState gf (SCspecialrights true false K) false)
  ∧ K ∈ gf_specialRights
          (applyState (applyState gf (SCspecialrights true false K) true)
                      (SCspecialrights true false K) false).
Proof.
  simpl. split_and!; try reflexivity.
  - rewrite elem_of_difference, elem_of_singleton. tauto.
  - rewrite elem_of_union, elem_of_singleton. tauto.
  - rewrite elem_of_union, elem_of_singleton. tauto.
Qed.

(** C9. [applyState] writes to the slot of its record only: every other
    tracked property, the membership of every other key of the
    special-rights set, and the rest of the gamefile are as before.  So
    [applyState] and [applyMove] leave the rest of the gamefile untouched,
    and [applyMove] leaves untouched every slot none of its records has. *)
Theorem applyState_writes_own_slot_only gf change move
    (forward globalChange : bool) x :
  x ≠ slot_of change →
  slot_agree x (applyState gf change forward) gf
  ∧ gf_rest (applyState gf change forward) = gf_rest gf
  ∧ gf_rest (applyMove gf move forward globalChange) = gf_rest gf
  ∧ (x ∉ slot_of <$> (local (state move) ++ global (state move)) →
     slot_agree x (applyMove gf move forward globalChange) gf).
Proof.
  intros Hx. split_and!.
  - by apply applyState_other_slot.
  - apply (applyState_other_slot gf change forward SlotRest). by destruct change.
  - destruct globalChange.
    + rewrite applyMove_global.
      apply (for_of_other_slots _ gf forward SlotRest), slot_rest_not_written.
    + rewrite applyMove_local.
      apply (for_of_other_slots _ gf forward SlotRest), slot_rest_not_written.
  - rewrite fmap_app, not_elem_of_app. intros [Hl Hg].
    destruct globalChange.
    + rewrite applyMove_global. apply for_of_other_slots.
      rewrite fmap_app, not_elem_of_app. done.
    + rewrite applyMove_local. by apply for_of_other_slots.
Qed.

(** *** The factories *)

(** C7. [createCheckState] and [createAttackersState] always push their
    record to [move.state.local], whether or not [current] equals
    [future], leave [move.state.global] as it is, and return the gamefile
    with the record applied forward: its check indicator (attacker list) is
    [future]. *)
Theorem local_factories_record_and_apply gf move
    (current future : inCheck) (currentA futureA : attackers path) :
  local (state (createCheckState move current future gf).1)
  = local (state move) ++ [SCcheck current future]
  ∧ global (state (createCheckState move current future gf).1)
    = global (state move)
  ∧ (createCheckState move current future gf).2
    = applyState gf (SCcheck current future) true
  ∧ gf_inCheck (createCheckState move current future gf).2 = future
  ∧ local (state (createAttackersState move currentA futureA gf).1)
    = local (state move) ++ [SCattackers currentA futureA]
  ∧ global (state (createAttackersState move currentA futureA gf).1)
    = global (state move)
  ∧ (createAttackersState move currentA futureA gf).2
    = applyState gf (SCattackers currentA futureA) true
  ∧ gf_attackers (createAttackersState move currentA futureA gf).2 = futureA.
Proof. split_and!; reflexivity. Qed.

(** C4. A global factory called with [current] equal to [future] returns
    the move as it was: nothing is pushed to [move.state.global] and no
    record is changed. *)
Theorem global_factories_skip_equal move (X : EnPassantValue)
    (coordsKey : CoordsKey) (b : bool) (n : Z) :
  createEnPassantState move X X = move
  ∧ createSpecialRightsState move coordsKey b b = move
  ∧ createMoveRuleState move n n = move.
Proof.
  unfold createEnPassantState, createSpecialRightsState, createMoveRuleState,
    strict_eq.
  split_and!; by rewrite bool_decide_eq_true_2.
Qed.

(** C5. With [forward = true] and [globalChange = false], [applyMove] on a
    move whose local records are of the check and attackers kinds (as the
    factories make them) leaves the en-passant value, the special-rights set,
    the move-rule counter and the rest of the gamefile as they were,
    whatever [move.state.global] holds; and a local property is written
    only if [move.state.local] has a record of its kind. *)
Theorem applyMove_local_scope_isolation gf move :
  Forall (λ c, local_kind c = true) (local (state move)) →
  gf_enpassant (applyMove gf move true false) = gf_enpassant gf
  ∧ gf_specialRights (applyMove gf move true false) = gf_specialRights gf
  ∧ gf_moveRuleState (applyMove gf move true false) = gf_moveRuleState gf
  ∧ gf_rest (applyMove gf move true false) = gf_rest gf
  ∧ (Forall (λ c, is_check c = false) (local (state move)) →
     gf_inCheck (applyMove gf move true false) = gf_inCheck gf)
  ∧ (Forall (λ c, is_attackers c = false) (local (state move)) →
     gf_attackers (applyMove gf move true false) = gf_attackers gf).
Proof.
  intros Hkinds. rewrite applyMove_local.
  assert (∀ x, (∀ c, c ∈ local (state move) → x ≠ slot_of c) →
            slot_agree x (for_of (local (state move))
                            (λ g c, applyState g c true) gf) gf) as Hslot.
  { intros x Hx. apply for_of_other_slots.
    intros (c & -> & Hc)%list_elem_of_fmap. by apply (Hx c). }
  rewrite Forall_forall in Hkinds.
  assert (∀ x, (∀ c, local_kind c = true → x ≠ slot_of c) →
            slot_agree x (for_of (local (state move))
                            (λ g c, applyState g c true) gf) gf) as Hglobal.
  { intros x Hx. apply Hslot. intros c Hc. apply Hx, Hkinds, Hc. }
  split_and!.
  - apply (Hglobal SlotEnPassant). by intros [].
  - apply set_eq. intros k. apply (Hglobal (SlotRight k)). by intros [].
  - apply (Hglobal SlotMoveRule). by intros [].
  - apply (Hslot SlotRest). by intros [].
  - rewrite Forall_forall. intros Hno. apply (Hslot SlotInCheck).
    intros c Hc. specialize (Hno c Hc). by destruct c.
  - rewrite Forall_forall. intros Hno. apply (Hslot SlotAttackers).
    intros c Hc. specialize (Hno c Hc). by destruct c.
Qed.

(** *** What [createEnPassantState] does to [move.state.global] *)

Lemma list_find_split {A} (P : A → Prop) `{!∀ a, Decision (P a)}
    (l : list A) (i : nat) (a : A) :
  list_find P l = Some (i, a) →
  ∃ l1 l2 : list A, l = l1 ++ a :: l2 ∧ length l1 = i
           ∧ Forall (λ b, ¬ P b) l1 ∧ P a.
Proof.
  intros (Hi & Ha & Hleast)%list_find_Some.
  exists (take i l), (drop (S i) l). split_and!; [| |  |done].
  - by rewrite take_drop_middle.
  - apply length_take_le. apply lookup_lt_Some in Hi. lia.
  - apply Forall_lookup. intros j b Hj.
    apply lookup_take_Some in Hj as [Hj Hlt]. by apply (Hleast j).
Qed.

Lemma list_find_none_filter {A} (P : A → Prop) `{!∀ a, Decision (P a)}
    (l : list A) :
  Forall (λ b, ¬ P b) l → filter P l = [].
Proof.
  induction 1 as [|b l Hb Hl IH]; [done|]. by rewrite filter_cons_False.
Qed.

(** The two outcomes of a call that is not skipped: the first enpassant
    record of the sequence gets the new [future], or, when there is none,
    a new record goes to the end. *)
Lemma createEnPassantState_cases move (current future : EnPassantValue) :
  current ≠ future →
  local (state (createEnPassantState move current future))
  = local (state move)
  ∧ ((∃ g1 pre g2,
        global (state move) = g1 ++ pre :: g2
        ∧ Forall (λ c, ¬ is_enpassant c = true) g1
        ∧ is_enpassant pre = true
        ∧ list_find (λ c, is_enpassant c = true) (global (state move))
          = Some (length g1, pre)
        ∧ global (state (createEnPassantState move current future))
          = g1 ++ assign_future pre future :: g2)
     ∨ (Forall (λ c, ¬ is_enpassant c = true) (global (state move))
        ∧ global (state (createEnPassantState move current future))
          = global (state move) ++ [SCenpassant current future])).
Proof.
  intros Hne. unfold createEnPassantState, strict_eq.
  rewrite bool_decide_eq_false_2 by done.
  destruct (list_find _ (global (state move))) as [[i pre]|] eqn:Hfind; simpl.
  - split; [done|]. left.
    destruct (list_find_split _ _ _ _ Hfind) as (g1 & g2 & Hg & Hlen & Hg1 & Hpre).
    exists g1, pre, g2. subst i. split_and!; try done.
    rewrite Hg. replace (length g1) with (length g1 + 0)%nat by lia.
    by rewrite insert_app_r.
  - split; [done|]. right. split; [|done].
    by apply (list_find_None (λ c, is_enpassant c = true)).
Qed.

Lemma assign_future_slot change (future : EnPassantValue) :
  slot_of (assign_future change future) = slot_of change.
Proof. by destruct change. Qed.

Lemma assign_future_matches (S0 : gamefile) change (future : EnPassantValue) :
  record_matches S0 change → record_matches S0 (assign_future change future).
Proof. by destruct change. Qed.


Lemma list_find_middle {A} (P : A → Prop) `{!∀ a, Decision (P a)}
    (l1 l2 : list A) (a : A) :
  Forall (λ b, ¬ P b) l1 → P a →
  list_find P (l1 ++ a :: l2) = Some (length l1, a).
Proof.
  intros Hl1 Ha. apply list_find_Some. split_and!; [|done|].
  - by rewrite list_lookup_middle.
  - intros j b Hj Hlt. rewrite lookup_app_l in Hj by done.
    by apply (Forall_lookup_1 _ _ _ _ Hl1 Hj).
Qed.

Lemma createEnPassantState_skip move (X : EnPassantValue) :
  createEnPassantState move X X = move.
Proof.
  unfold createEnPassantState, strict_eq. by rewrite bool_decide_eq_true_2.
Qed.

Lemma createEnPassantState_overwrite move (current future : EnPassantValue)
    (g1 g2 : list StateChange) (pre : StateChange) :
  current ≠ future →
  global (state move) = g1 ++ pre :: g2 →
  Forall (λ c, ¬ is_enpassant c = true) g1 →
  is_enpassant pre = true →
  createEnPassantState move current future
  = with_global move (g1 ++ assign_future pre future :: g2).
Proof.
  intros Hne Hg Hg1 Hpre. unfold createEnPassantState, strict_eq.
  rewrite bool_decide_eq_false_2 by done.
  rewrite Hg, (list_find_middle (λ c, is_enpassant c = true)) by done.
  replace (length g1) with (length g1 + 0)%nat by lia.
  by rewrite insert_app_r.
Qed.

Lemma createEnPassantState_push move (current future : EnPassantValue) :
  current ≠ future →
  Forall (λ c, ¬ is_enpassant c = true) (global (state move)) →
  createEnPassantState move current future
  = push_global move (SCenpassant current future).
Proof.
  intros Hne Hg. unfold createEnPassantState, strict_eq.
  rewrite bool_decide_eq_false_2 by done.
  apply (list_find_None (λ c, is_enpassant c = true)) in Hg. by rewrite Hg.
Qed.

Lemma assign_future_twice change (f1 f2 : EnPassantValue) :
  assign_future (assign_future change f1) f2 = assign_future change f2.
Proof. by destruct change. Qed.

Lemma assign_future_is_enpassant change (future : EnPassantValue) :
  is_enpassant (assign_future change future) = is_enpassant change.
Proof. by destruct change. Qed.

(** *** Populating a move keeps it consistent with the pre-move gamefile *)

Lemma push_local_consistent (S0 : gamefile) move gf change :
  record_matches S0 change →
  consistent_with S0 (move, gf) →
  consistent_with S0 (push_local move change, applyState gf change true).
Proof.
  intros Hm [Hrec Hslots]. unfold consistent_with, records in *. simpl in *.
  apply Forall_app in Hrec as [Hl Hg]. split.
  - rewrite !Forall_app, Forall_singleton. done.
  - intros x. rewrite !fmap_app, !not_elem_of_app. simpl.
    rewrite not_elem_of_cons. intros [[Hxl [Hxc _]] Hxg].
    eapply slot_agree_trans; [by apply applyState_other_slot|].
    apply Hslots. rewrite fmap_app, not_elem_of_app. done.
Qed.

Lemma push_global_consistent (S0 : gamefile) move gf change :
  record_matches S0 change →
  consistent_with S0 (move, gf) →
  consistent_with S0 (push_global move change, gf).
Proof.
  intros Hm [Hrec Hslots]. unfold consistent_with, records in *. simpl in *.
  apply Forall_app in Hrec as [Hl Hg]. split.
  - rewrite !Forall_app, Forall_singleton. done.
  - intros x. rewrite !fmap_app, !not_elem_of_app. simpl.
    rewrite not_elem_of_cons. intros [Hxl [Hxg [Hxc _]]].
    apply Hslots. rewrite fmap_app, not_elem_of_app. done.
Qed.

Lemma createEnPassantState_consistent (S0 : gamefile) move gf
    (current future : EnPassantValue) :
  current = gf_enpassant S0 →
  consistent_with S0 (move, gf) →
  consistent_with S0 (createEnPassantState move current future, gf).
Proof.
  intros Hm Hcons.
  destruct (decide (current = future)) as [->|Hne].
  { by rewrite createEnPassantState_skip. }
  destruct (createEnPassantState_cases move current future Hne)
    as [_ [(g1 & pre & g2 & Hg & Hg1 & Hpre & _ & _)|[Hnone _]]].
  - rewrite (createEnPassantState_overwrite _ _ _ g1 g2 pre) by done.
    destruct Hcons as [Hrec Hslots].
    unfold consistent_with, records in *. simpl in *.
    rewrite Hg in Hrec, Hslots. split.
    + rewrite !Forall_app, !Forall_cons in *.
      destruct Hrec as (? & ? & ? & ?). split_and!; try done.
      by apply assign_future_matches.
    + intros x Hx. apply Hslots.
      rewrite !fmap_app, !fmap_cons, assign_future_slot in *. done.
  - rewrite createEnPassantState_push by done.
    by apply push_global_consistent.
Qed.

Lemma run_call_consistent (S0 : gamefile) (st : Move * gamefile)
    (call : FactoryCall) :
  call_matches S0 call →
  consistent_with S0 st → consistent_with S0 (run_call st call).
Proof.
  destruct st as [move gf].
  destruct call as [cur fut|cur fut|cur fut|k cur fut|cur fut];
    simpl; intros Hm Hcons.
  - by apply push_local_consistent.
  - by apply push_local_consistent.
  - by apply createEnPassantState_consistent.
  - unfold createSpecialRightsState. destruct (strict_eq cur fut); [done|].
    by apply push_global_consistent.
  - unfold createMoveRuleState. destruct (strict_eq cur fut); [done|].
    by apply push_global_consistent.
Qed.

Lemma run_calls_consistent (S0 : gamefile) (calls : list FactoryCall)
    (st : Move * gamefile) :
  Forall (call_matches S0) calls →
  consistent_with S0 st → consistent_with S0 (run_calls calls st).
Proof.
  unfold run_calls. intros Hcalls. revert st.
  induction Hcalls as [|call calls Hcall _ IH]; intros st Hst; simpl; [done|].
  by apply IH, run_call_consistent.
Qed.

(** Forward then backward over the records of a consistent move gives the
    pre-move gamefile back. *)
Lemma consistent_round_trip (S0 : gamefile) move gf :
  consistent_with S0 (move, gf) →
  applyMove (applyMove gf move true true) move false true = S0.
Proof.
  intros [Hrec Hslots]. simpl in *.
  rewrite !applyMove_global. fold (records move).
  apply gamefile_ext. intros x.
  apply for_of_backward_restores; [done|].
  destruct (decide (x ∈ slot_of <$> records move)) as [Hin|Hout]; [by left|].
  right. eapply slot_agree_trans; [by apply for_of_other_slots|].
  by apply Hslots.
Qed.


(** *** At most one enpassant record *)

Lemma push_global_not_enpassant move change :
  is_enpassant change = false →
  enpassant_records (global (state (push_global move change)))
  = enpassant_records (global (state move)).
Proof.
  intros Hc. unfold enpassant_records. simpl.
  rewrite filter_app, filter_cons_False, filter_nil, app_nil_r; [done|].
  by rewrite Hc.
Qed.

Lemma run_call_one_enpassant (st : Move * gamefile) (call : FactoryCall) :
  (length (enpassant_records (global (state st.1))) ≤ 1)%nat →
  (length (enpassant_records (global (state (run_call st call).1))) ≤ 1)%nat.
Proof.
  destruct st as [move gf].
  destruct call as [cur fut|cur fut|cur fut|k cur fut|cur fut];
    simpl; intros Hone; try done.
  - destruct (decide (cur = fut)) as [->|Hne].
    { by rewrite createEnPassantState_skip. }
    destruct (createEnPassantState_cases move cur fut Hne)
      as [_ [(g1 & pre & g2 & Hg & Hg1 & Hpre & _ & ->)|[Hnone ->]]].
    + revert Hone. rewrite Hg. unfold enpassant_records.
      rewrite !filter_app.
      rewrite (filter_cons_True _ pre) by done.
      rewrite (filter_cons_True _ (assign_future pre fut))
        by (by rewrite assign_future_is_enpassant).
      by rewrite !length_app.
    + unfold enpassant_records.
      rewrite filter_app, (list_find_none_filter _ _ Hnone). simpl. lia.
  - unfold createSpecialRightsState. destruct (strict_eq cur fut); [done|].
    by rewrite push_global_not_enpassant.
  - unfold createMoveRuleState. destruct (strict_eq cur fut); [done|].
    by rewrite push_global_not_enpassant.
Qed.

Lemma run_calls_one_enpassant (calls : list FactoryCall)
    (st : Move * gamefile) :
  (length (enpassant_records (global (state st.1))) ≤ 1)%nat →
  (length (enpassant_records (global (state (run_calls calls st).1))) ≤ 1)%nat.
Proof.
  unfold run_calls. revert st.
  induction calls as [|call calls IH]; intros st Hst; simpl; [done|].
  by apply IH, run_call_one_enpassant.
Qed.

(** C3, as the code has it.  A move populated by the factories holds at
    most one enpassant record in [move.state.global].  After
    [createEnPassantState(move, A, B)] and [createEnPassantState(move, B, C)]
    with [A], [B] and [C] distinct there is exactly one, and its [future]
    is [C]; its [current] is [A] when the move held no enpassant record
    before the two calls, and otherwise the [current] of the record the move
    already held. *)
Theorem enpassant_records_coalesce (move0 : Move) (gf0 : gamefile)
    (calls : list FactoryCall) (A B C : EnPassantValue) :
  fresh move0 → A ≠ B → B ≠ C → A ≠ C →
  (length (enpassant_records
             (global (state (run_calls calls (move0, gf0)).1))) ≤ 1)%nat
  ∧ (enpassant_records (global (state (run_calls calls (move0, gf0)).1)) = [] →
     enpassant_records
       (global (state (createEnPassantState
                         (createEnPassantState
                            (run_calls calls (move0, gf0)).1 A B) B C)))
     = [SCenpassant A C])
  ∧ (∀ X Y : EnPassantValue,
       enpassant_records (global (state (run_calls calls (move0, gf0)).1))
       = [SCenpassant X Y] →
       enpassant_records
         (global (state (createEnPassantState
                           (createEnPassantState
                              (run_calls calls (move0, gf0)).1 A B) B C)))
       = [SCenpassant X C]).
Proof.
  intros [_ Hg0] HAB HBC _.
  assert (length (enpassant_records
            (global (state (run_calls calls (move0, gf0)).1))) ≤ 1)%nat as Hone.
  { apply run_calls_one_enpassant. simpl. rewrite Hg0. simpl. lia. }
  split; [done|].
  destruct (run_calls calls (move0, gf0)) as [move gf]. simpl in *.
  destruct (createEnPassantState_cases move A B HAB)
    as [_ [(g1 & pre & g2 & Hg & Hg1 & Hpre & _ & _)|[Hnone _]]].
  - (* the move already holds a record: both calls overwrite its future *)
    rewrite (createEnPassantState_overwrite move A B g1 g2 pre) by done.
    rewrite (createEnPassantState_overwrite _ B C g1 g2 (assign_future pre B));
      [|done|done|done|by rewrite assign_future_is_enpassant].
    simpl. rewrite assign_future_twice.
    revert Hone. rewrite Hg. unfold enpassant_records.
    rewrite !filter_app, (list_find_none_filter _ _ Hg1). simpl.
    rewrite (filter_cons_True _ pre) by done.
    rewrite (filter_cons_True _ (assign_future pre C))
      by (by rewrite assign_future_is_enpassant).
    simpl. intros Hone.
    destruct (filter _ g2) as [|c' rest]; [|simpl in Hone; lia].
    split; [done|]. intros X Y [= ->]. done.
  - (* no record yet: the first call pushes one, the second overwrites it *)
    rewrite (createEnPassantState_push move A B) by done.
    rewrite (createEnPassantState_overwrite _ B C (global (state move)) []
               (SCenpassant A B)); [|done..].
    simpl. unfold enpassant_records.
    rewrite (list_find_none_filter _ _ Hnone).
    rewrite filter_app, (list_find_none_filter _ _ Hnone). simpl.
    rewrite filter_cons_True by done.
    split; [done|]. intros X Y [=].
Qed.

(** C2, as the code has it.  After [createEnPassantState(move, undefined, E)]
    and [createEnPassantState(move, E, undefined)] the global sequence still
    holds an enpassant record.  If the move held none before, it is the
    coalesced record, whose [current] and [future] are both [undefined],
    pushed at the end; if it held one, that record now has [future]
    [undefined].  Nothing removes a record.  Applying the coalesced record in
    either direction leaves the gamefile without an en-passant value. *)
Theorem enpassant_set_then_cleared_keeps_record move gf (E : EnPassantRef)
    (forward : bool) :
  local (state (createEnPassantState
                  (createEnPassantState move None (Some E)) (Some E) None))
  = local (state move)
  ∧ match list_find (λ c, is_enpassant c = true) (global (state move)) with
    | None =>
        global (state (createEnPassantState
                         (createEnPassantState move None (Some E))
                         (Some E) None))
        = global (state move) ++ [SCenpassant None None]
    | Some (i, pre) =>
        global (state (createEnPassantState
                         (createEnPassantState move None (Some E))
                         (Some E) None))
        = <[i := assign_future pre None]> (global (state move))
    end
  ∧ enpassant_records
      (global (state (createEnPassantState
                        (createEnPassantState move None (Some E))
                        (Some E) None))) ≠ []
  ∧ gf_enpassant (applyState gf (SCenpassant None None) forward) = None.
Proof.
  assert (None ≠ Some E) as H1 by done.
  assert (Some E ≠ None) as H2 by done.
  destruct (createEnPassantState_cases move None (Some E) H1)
    as [_ [(g1 & pre & g2 & Hg & Hg1 & Hpre & Hfind & _)|[Hnone _]]].
  - rewrite (createEnPassantState_overwrite move _ _ g1 g2 pre) by done.
    rewrite (createEnPassantState_overwrite _ _ _ g1 g2
               (assign_future pre (Some E)));
      [|done|done|done|by rewrite assign_future_is_enpassant].
    rewrite Hfind. simpl. rewrite assign_future_twice.
    split_and!; [done| | |by destruct forward].
    + rewrite Hg. replace (length g1) with (length g1 + 0)%nat by lia.
      by rewrite insert_app_r.
    + unfold enpassant_records.
      rewrite filter_app, filter_cons_True
        by (by rewrite assign_future_is_enpassant).
      by destruct (filter _ g1).
  - rewrite (createEnPassantState_push move _ _) by done.
    rewrite (createEnPassantState_overwrite _ _ _ (global (state move)) []
               (SCenpassant None (Some E))); [|done..].
    apply (list_find_None (λ c, is_enpassant c = true)) in Hnone as Hfind.
    rewrite Hfind. simpl.
    split_and!; [done|done| |by destruct forward].
    unfold enpassant_records.
    rewrite filter_app, filter_cons_True by done.
    by destruct (filter _ (global (state move))).
Qed.


(** C10, as the code has it.  [createEnPassantState] compares [current]
    and [future] by identity.  Two distinct objects with the same square and
    pawn coordinates are not [===]: the call is not skipped.  On a move
    without an enpassant record it pushes a record whose [current] and
    [future] have the same contents; on a move that holds one it overwrites
    the [future] of that record with the new reference and pushes nothing. *)
Theorem enpassant_skip_is_by_reference
    (heap : gmap EnPassantRef EnPassant) move
    (r1 r2 : EnPassantRef) (o : EnPassant) :
  r1 ≠ r2 → heap !! r1 = Some o → heap !! r2 = Some o →
  deref heap (Some r1) = deref heap (Some r2)
  ∧ strict_eq (Some r1) (Some r2) = false
  ∧ (Forall (λ c, ¬ is_enpassant c = true) (global (state move)) →
     global (state (createEnPassantState move (Some r1) (Some r2)))
     = global (state move) ++ [SCenpassant (Some r1) (Some r2)])
  ∧ (∀ (g1 g2 : list StateChange) (pre : StateChange),
       global (state move) = g1 ++ pre :: g2 →
       Forall (λ c, ¬ is_enpassant c = true) g1 →
       is_enpassant pre = true →
       global (state (createEnPassantState move (Some r1) (Some r2)))
       = g1 ++ assign_future pre (Some r2) :: g2).
Proof.
  intros Hne H1 H2.
  assert (Some r1 ≠ Some r2) as Hne' by congruence.
  split_and!.
  - simpl. by rewrite H1, H2.
  - unfold strict_eq. by rewrite bool_decide_eq_false_2.
  - intros Hnone. by rewrite createEnPassantState_push.
  - intros g1 g2 pre Hg Hg1 Hpre.
    by rewrite (createEnPassantState_overwrite _ _ _ g1 g2 pre).
Qed.


(** *** Replaying a move more than once *)

Lemma slot_agree_sym x (a b : gamefile) : slot_agree x a b → slot_agree x b a.
Proof. destruct x; simpl; try congruence. tauto. Qed.

(** What [applyState] writes to the slot of its record does not depend on
    the gamefile it is applied to. *)
Lemma applyState_own_slot (gf1 gf2 : gamefile) change (forward : bool) :
  slot_agree (slot_of change)
    (applyState gf1 change forward) (applyState gf2 change forward).
Proof.
  destruct change as [c f|c f|c f|c f k|c f]; simpl;
    repeat case_match; simpl; try done.
  all: first [rewrite !elem_of_difference | rewrite !elem_of_union].
  all: rewrite !elem_of_singleton; tauto.
Qed.

(** Nor does what a loop of [applyState] leaves in the slots of its
    records. *)
Lemma for_of_own_slots l (gf1 gf2 : gamefile) (forward : bool) x :
  x ∈ slot_of <$> l →
  slot_agree x (for_of l (λ g c, applyState g c forward) gf1)
               (for_of l (λ g c, applyState g c forward) gf2).
Proof.
  revert gf1 gf2. induction l as [|c l IH]; intros gf1 gf2 Hx; simpl.
  - by apply elem_of_nil in Hx.
  - destruct (decide (x ∈ slot_of <$> l)) as [Hin|Hout]; [by apply IH|].
    rewrite fmap_cons, elem_of_cons in Hx. destruct Hx as [->|Hx]; [|done].
    eapply slot_agree_trans; [by apply for_of_other_slots|].
    eapply slot_agree_trans; [apply (applyState_own_slot _ gf2)|].
    by apply slot_agree_sym, for_of_other_slots.
Qed.

Lemma for_of_absorbs l gf (d1 d2 : bool) :
  for_of l (λ g c, applyState g c d2)
    (for_of l (λ g c, applyState g c d1) gf)
  = for_of l (λ g c, applyState g c d2) gf.
Proof.
  apply gamefile_ext. intros x.
  destruct (decide (x ∈ slot_of <$> l)) as [Hin|Hout].
  - by apply for_of_own_slots.
  - eapply slot_agree_trans; [by apply for_of_other_slots|].
    eapply slot_agree_trans; [by apply for_of_other_slots|].
    by apply slot_agree_sym, for_of_other_slots.
Qed.

(** X1. A replay of a move absorbs an earlier replay of the same move with
    the same scope, whatever the direction of the earlier one: replaying
    twice in one direction is replaying once, and redoing after undoing (or
    undoing after redoing) gives what redoing (undoing) alone gives. *)
Theorem applyMove_absorbs_earlier_replay gf move
    (earlier forward globalChange : bool) :
  applyMove (applyMove gf move earlier globalChange) move forward globalChange
  = applyMove gf move forward globalChange.
Proof.
  destruct globalChange.
  - rewrite !applyMove_global. apply for_of_absorbs.
  - rewrite !applyMove_local. apply for_of_absorbs.
Qed.

(** X2. The last record of a slot decides: when no record after [change]
    in the move writes to the slot of [change], a replay with [globalChange]
    leaves in that slot what [applyState] of [change] alone writes, forward
    its [future] and backward its [current], whatever earlier records of the
    same slot say. *)
Theorem applyMove_last_record_decides gf move change
    (l1 l2 : list StateChange) (forward : bool) :
  records move = l1 ++ change :: l2 →
  slot_of change ∉ slot_of <$> l2 →
  slot_agree (slot_of change)
    (applyMove gf move forward true) (applyState gf change forward).
Proof.
  intros Hrec Hlast. rewrite applyMove_global. fold (records move).
  rewrite Hrec, for_of_app. simpl.
  eapply slot_agree_trans; [by apply for_of_other_slots|].
  apply applyState_own_slot.
Qed.

(** X3. Undoing a move on a gamefile that already holds every [current]
    of its records changes nothing, with either scope.  Redoing a move on a
    gamefile that already holds every [future] of its records changes
    nothing, with either scope.  The two facts are independent: each needs
    its own condition only. *)
Theorem applyMove_on_matching_gamefile_is_identity (S0 S1 : gamefile) move
    (globalChange : bool) :
  (Forall (record_matches S0) (records move) →
   applyMove S0 move false globalChange = S0)
  ∧ (Forall (future_matches S1) (records move) →
     applyMove S1 move true globalChange = S1).
Proof.
  assert (∀ l, Forall (future_matches S1) l →
            for_of l (λ g c, applyState g c true) S1 = S1) as Hforward.
  { intros l Hl. apply gamefile_ext. intros x.
    assert (∀ gf, slot_agree x gf S1 →
              slot_agree x (for_of l (λ g c, applyState g c true) gf) S1)
      as Hloop; [|apply Hloop, slot_agree_refl].
    induction Hl as [|c l Hc Hl IH]; intros gf Hgf; simpl; [done|].
    apply IH. destruct (decide (x = slot_of c)) as [->|Hne].
    - clear -Hc. destruct c as [c f|c f|c f|c f k|c f]; simpl in *; subst;
        try done.
      + by case_bool_decide.
      + case_bool_decide as Hk; simpl.
        * rewrite elem_of_union, elem_of_singleton. tauto.
        * rewrite elem_of_difference, elem_of_singleton. tauto.
    - eapply slot_agree_trans; [by apply applyState_other_slot|done]. }
  assert (∀ l, Forall (record_matches S0) l →
            for_of l (λ g c, applyState g c false) S0 = S0) as Hbackward.
  { intros l Hl. apply gamefile_ext. intros x.
    apply for_of_backward_restores; [done|]. right. apply slot_agree_refl. }
  unfold records. split.
  - intros Hcur. destruct globalChange.
    + rewrite applyMove_global. by apply Hbackward.
    + rewrite applyMove_local. apply Forall_app in Hcur as [Hcur _].
      by apply Hbackward.
  - intros Hfut. destruct globalChange.
    + rewrite applyMove_global. by apply Hforward.
    + rewrite applyMove_local. apply Forall_app in Hfut as [Hfut _].
      by apply Hforward.
Qed.

(** X4. The records of the global kinds never write the check indicator
    or the attacker list: on a move whose global records are of the global
    kinds, a replay with [globalChange] leaves in them what the replay
    without it leaves. *)
Theorem applyMove_global_records_keep_local_properties gf move
    (forward : bool) :
  Forall (λ c, global_kind c = true) (global (state move)) →
  gf_inCheck (applyMove gf move forward true)
  = gf_inCheck (applyMove gf move forward false)
  ∧ gf_attackers (applyMove gf move forward true)
    = gf_attackers (applyMove gf move forward false).
Proof.
  intros Hkinds. rewrite applyMove_global, applyMove_local, for_of_app.
  rewrite Forall_forall in Hkinds.
  split.
  - apply (for_of_other_slots (global (state move)) _ forward SlotInCheck).
    intros (c & Hc & Hin)%list_elem_of_fmap.
    specialize (Hkinds c Hin). by destruct c.
  - apply (for_of_other_slots (global (state move)) _ forward SlotAttackers).
    intros (c & Hc & Hin)%list_elem_of_fmap.
    specialize (Hkinds c Hin). by destruct c.
Qed.


(** *** What the factories leave in a move *)

Lemma run_calls_cons (call : FactoryCall) (calls : list FactoryCall)
    (st : Move * gamefile) :
  run_calls (call :: calls) st = run_calls calls (run_call st call).
Proof. reflexivity. Qed.

Lemma createEnPassantState_frame move (current future : EnPassantValue) :
  local (state (createEnPassantState move current future))
  = local (state move)
  ∧ move_rest (createEnPassantState move current future) = move_rest move
  ∧ filter (λ c, is_enpassant c = false)
      (global (state (createEnPassantState move current future)))
    = filter (λ c, is_enpassant c = false) (global (state move)).
Proof.
  destruct (decide (current = future)) as [->|Hne].
  { by rewrite createEnPassantState_skip. }
  destruct (createEnPassantState_cases move current future Hne)
    as [_ [(g1 & pre & g2 & Hg & Hg1 & Hpre & _ & _)|[Hnone _]]].
  - rewrite (createEnPassantState_overwrite _ _ _ g1 g2 pre) by done.
    simpl. split_and!; [done..|].
    rewrite Hg, !filter_app, !filter_cons_False; [done| |].
    + by rewrite Hpre.
    + by rewrite assign_future_is_enpassant, Hpre.
  - rewrite createEnPassantState_push by done. simpl. split_and!; [done..|].
    by rewrite filter_app, filter_cons_False, filter_nil, app_nil_r.
Qed.

Lemma run_calls_records move gf (calls : list FactoryCall) :
  local (state (run_calls calls (move, gf)).1)
  = local (state move) ++ omap local_record_of calls
  ∧ filter (λ c, is_enpassant c = false)
      (global (state (run_calls calls (move, gf)).1))
    = filter (λ c, is_enpassant c = false) (global (state move))
      ++ omap plain_global_record_of calls
  ∧ move_rest (run_calls calls (move, gf)).1 = move_rest move.
Proof.
  revert move gf. induction calls as [|call calls IH]; intros move gf.
  { simpl. by rewrite !app_nil_r. }
  rewrite run_calls_cons.
  destruct (run_call (move, gf) call) as [move' gf'] eqn:Hcall.
  destruct (IH move' gf') as (-> & -> & ->).
  destruct call as [cur fut|cur fut|cur fut|k cur fut|cur fut];
    simpl in Hcall; injection Hcall as <- <-; simpl.
  - rewrite <- !app_assoc. done.
  - rewrite <- !app_assoc. done.
  - destruct (createEnPassantState_frame move cur fut) as (-> & -> & ->).
    done.
  - unfold createSpecialRightsState. destruct (strict_eq cur fut); [done|].
    simpl. rewrite filter_app, filter_cons_True, filter_nil by done.
    by rewrite <- !app_assoc.
  - unfold createMoveRuleState. destruct (strict_eq cur fut); [done|].
    simpl. rewrite filter_app, filter_cons_True, filter_nil by done.
    by rewrite <- !app_assoc.
Qed.

(** X5. Whatever calls populate a move: the local sequence grows by the
    records of the calls to the local factories, one per call and in call
    order; apart from enpassant records, the global sequence grows by the
    records of the calls to [createSpecialRightsState] and
    [createMoveRuleState] that are not skipped, one per call and in call
    order, never merged; and nothing else of the move changes. *)
Theorem run_calls_pushes_in_call_order move gf (calls : list FactoryCall) :
  local (state (run_calls calls (move, gf)).1)
  = local (state move) ++ omap local_record_of calls
  ∧ filter (λ c, is_enpassant c = false)
      (global (state (run_calls calls (move, gf)).1))
    = filter (λ c, is_enpassant c = false) (global (state move))
      ++ omap plain_global_record_of calls
  ∧ move_rest (run_calls calls (move, gf)).1 = move_rest move.
Proof. apply run_calls_records. Qed.

Lemma run_calls_gamefile move gf (calls : list FactoryCall) :
  (run_calls calls (move, gf)).2
  = for_of (omap local_record_of calls) (λ g c, applyState g c true) gf.
Proof.
  revert move gf. induction calls as [|call calls IH]; intros move gf.
  { done. }
  rewrite run_calls_cons.
  destruct (run_call (move, gf) call) as [move' gf'] eqn:Hcall.
  rewrite IH.
  destruct call; simpl in Hcall; injection Hcall as <- <-; done.
Qed.

(** C1. Round-trip law.  Take a freshly generated move and the pre-move
    gamefile [S0], and populate the move by any sequence of factory calls;
    the local factories write to the gamefile as they go.  If every record
    the move then holds remembers as [current] what [S0] holds for its
    property (for a specialrights record: whether its key is in the
    special-rights set of [S0]), then [applyMove] forward with
    [globalChange] followed by [applyMove] backward with [globalChange]
    leaves the gamefile equal to [S0]: check indicator, attacker list,
    en-passant value, special-rights set, move-rule counter, and everything
    else.  The condition is on the records, not on the calls: the [current]
    of an en-passant call that was merged into an earlier record is free. *)
Theorem applyMove_round_trip (S0 : gamefile) (move0 : Move)
    (calls : list FactoryCall) :
  fresh move0 →
  Forall (record_matches S0) (records (run_calls calls (move0, S0)).1) →
  applyMove
    (applyMove (run_calls calls (move0, S0)).2
               (run_calls calls (move0, S0)).1 true true)
    (run_calls calls (move0, S0)).1 false true
  = S0.
Proof.
  intros [Hl _] Hrec.
  apply consistent_round_trip. split; [exact Hrec|].
  simpl. intros x Hx.
  rewrite run_calls_gamefile.
  destruct (run_calls_records move0 S0 calls) as (Hlocal & _).
  rewrite Hl in Hlocal. simpl in Hlocal. rewrite <- Hlocal.
  apply for_of_other_slots.
  unfold records in Hx. rewrite fmap_app, not_elem_of_app in Hx.
  by destruct Hx.
Qed.

(** X6. The local factories keep the gamefile in step with the move: the
    gamefile a freshly generated move was constructed against is, once the
    factories have populated the move, what a forward replay of the move
    without [globalChange] makes of the gamefile of before the construction.
    The global records are queued only. *)
Theorem run_calls_gamefile_is_local_replay (S0 : gamefile) (move0 : Move)
    (calls : list FactoryCall) :
  fresh move0 →
  (run_calls calls (move0, S0)).2
  = applyMove S0 (run_calls calls (move0, S0)).1 true false.
Proof.
  intros [Hl _]. rewrite applyMove_local, run_calls_gamefile.
  destruct (run_calls_records move0 S0 calls) as (-> & _).
  by rewrite Hl.
Qed.

Lemma run_call_kinds (st : Move * gamefile) (call : FactoryCall) :
  Forall (λ c, local_kind c = true) (local (state st.1))
  ∧ Forall (λ c, global_kind c = true) (global (state st.1)) →
  Forall (λ c, local_kind c = true) (local (state (run_call st call).1))
  ∧ Forall (λ c, global_kind c = true) (global (state (run_call st call).1)).
Proof.
  destruct st as [move gf]. simpl. intros [Hl Hg].
  destruct call as [cur fut|cur fut|cur fut|k cur fut|cur fut]; simpl.
  - split; [|done]. rewrite Forall_app, Forall_singleton. done.
  - split; [|done]. rewrite Forall_app, Forall_singleton. done.
  - destruct (decide (cur = fut)) as [->|Hne].
    { by rewrite createEnPassantState_skip. }
    destruct (createEnPassantState_cases move cur fut Hne)
      as [-> [(g1 & pre & g2 & Hg' & _ & Hpre & _ & ->)|[_ ->]]].
    + split; [done|]. rewrite Hg' in Hg.
      rewrite !Forall_app, !Forall_cons in *.
      destruct Hg as (? & ? & ?). split_and!; try done.
      by destruct pre.
    + split; [done|]. rewrite Forall_app, Forall_singleton. done.
  - unfold createSpecialRightsState. destruct (strict_eq cur fut); [done|].
    simpl. split; [done|]. rewrite Forall_app, Forall_singleton. done.
  - unfold createMoveRuleState. destruct (strict_eq cur fut); [done|].
    simpl. split; [done|]. rewrite Forall_app, Forall_singleton. done.
Qed.

(** X7. The factories keep the two sequences apart: in a move populated
    by any calls, every record of the local sequence is a check or an
    attackers record and every record of the global sequence is an
    enpassant, a specialrights or a moverulestate record. *)
Theorem run_calls_keeps_kinds_apart (move0 : Move) (gf0 : gamefile)
    (calls : list FactoryCall) :
  fresh move0 →
  Forall (λ c, local_kind c = true)
         (local (state (run_calls calls (move0, gf0)).1))
  ∧ Forall (λ c, global_kind c = true)
           (global (state (run_calls calls (move0, gf0)).1)).
Proof.
  intros [Hl Hg].
  assert (∀ st : Move * gamefile,
    Forall (λ c, local_kind c = true) (local (state st.1))
    ∧ Forall (λ c, global_kind c = true) (global (state st.1)) →
    Forall (λ c, local_kind c = true)
           (local (state (run_calls calls st).1))
    ∧ Forall (λ c, global_kind c = true)
             (global (state (run_calls calls st).1))) as Hinv.
  { induction calls as [|call calls IH]; intros st Hst; [done|].
    rewrite run_calls_cons. by apply IH, run_call_kinds. }
  apply Hinv. simpl. rewrite Hl, Hg. done.
Qed.


(** *** The en-passant record of a populated move *)

Lemma run_call_enpassant_records (st : Move * gamefile) (call : FactoryCall) :
  (length (enpassant_records (global (state st.1))) ≤ 1)%nat →
  enpassant_records (global (state (run_call st call).1))
  = match enpassant_change_of call with
    | Some change => coalesce (enpassant_records (global (state st.1))) change
    | None => enpassant_records (global (state st.1))
    end.
Proof.
  destruct st as [move gf].
  destruct call as [cur fut|cur fut|cur fut|k cur fut|cur fut];
    simpl; intros Hone; try done.
  - unfold strict_eq. case_bool_decide as Heq.
    { subst. by rewrite createEnPassantState_skip. }
    destruct (createEnPassantState_cases move cur fut Heq)
      as [_ [(g1 & pre & g2 & Hg & Hg1 & Hpre & _ & ->)|[Hnone ->]]].
    + rewrite Hg. unfold enpassant_records.
      rewrite !filter_app, (list_find_none_filter _ _ Hg1).
      rewrite (filter_cons_True _ pre) by done.
      rewrite (filter_cons_True _ (assign_future pre fut))
        by (by rewrite assign_future_is_enpassant).
      done.
    + unfold enpassant_records.
      rewrite filter_app, (list_find_none_filter _ _ Hnone). simpl.
      by rewrite filter_cons_True.
  - unfold createSpecialRightsState. destruct (strict_eq cur fut); [done|].
    by rewrite push_global_not_enpassant.
  - unfold createMoveRuleState. destruct (strict_eq cur fut); [done|].
    by rewrite push_global_not_enpassant.
Qed.

Lemma run_calls_enpassant_records (calls : list FactoryCall)
    (st : Move * gamefile) :
  (length (enpassant_records (global (state st.1))) ≤ 1)%nat →
  enpassant_records (global (state (run_calls calls st).1))
  = foldl coalesce (enpassant_records (global (state st.1)))
          (omap enpassant_change_of calls).
Proof.
  revert st. induction calls as [|call calls IH]; intros st Hone; [done|].
  rewrite run_calls_cons, IH by (by apply run_call_one_enpassant).
  rewrite run_call_enpassant_records by done. simpl.
  by destruct (enpassant_change_of call).
Qed.

Lemma coalesce_onto_record (current future : EnPassantValue)
    (changes : list (EnPassantValue * EnPassantValue)) :
  foldl (coalesce (path := path)) [SCenpassant current future] changes
  = [SCenpassant current (default future (last changes.*2))].
Proof.
  revert future. induction changes as [|[c f] changes IH]; intros future.
  { done. }
  simpl. rewrite IH. f_equal. f_equal.
  destruct changes as [|ch changes]; [done|].
  rewrite !fmap_cons. generalize (ch.2) (changes.*2). clear.
  intros y l. change (last (f :: y :: l)) with (last (y :: l)).
  revert y. induction l as [|z l IH]; intros y; [done|].
  change (last (y :: z :: l)) with (last (z :: l)). apply IH.
Qed.

(** X8. The en-passant changes recorded on one move are merged end to
    end.  On a freshly generated move populated by any calls: if no call to
    [createEnPassantState] had distinct arguments, the move holds no
    enpassant record; otherwise it holds exactly one, whose [current] is the
    [current] of the first such call and whose [future] is the [future] of
    the last one.  The [current]s of the later calls are dropped. *)
Theorem run_calls_enpassant_first_current_last_future (move0 : Move)
    (gf0 : gamefile) (calls : list FactoryCall) :
  fresh move0 →
  enpassant_records (global (state (run_calls calls (move0, gf0)).1))
  = match omap enpassant_change_of calls with
    | [] => []
    | (current, future) :: later =>
        [SCenpassant current (default future (last later.*2))]
    end.
Proof.
  intros [_ Hg].
  rewrite run_calls_enpassant_records by (simpl; rewrite Hg; simpl; lia).
  simpl. rewrite Hg. simpl.
  destruct (omap enpassant_change_of calls) as [|[c f] later]; [done|].
  simpl. apply coalesce_onto_record.
Qed.

(** X9. Recording the same en-passant change twice on a move is recording
    it once. *)
Theorem createEnPassantState_twice move (current future : EnPassantValue) :
  createEnPassantState (createEnPassantState move current future)
                       current future
  = createEnPassantState move current future.
Proof.
  destruct (decide (current = future)) as [->|Hne].
  { by rewrite !createEnPassantState_skip. }
  destruct (createEnPassantState_cases move current future Hne)
    as [_ [(g1 & pre & g2 & Hg & Hg1 & Hpre & _ & _)|[Hnone _]]].
  - rewrite (createEnPassantState_overwrite move _ _ g1 g2 pre) by done.
    rewrite (createEnPassantState_overwrite _ _ _ g1 g2
               (assign_future pre future));
      [|done|done|done|by rewrite assign_future_is_enpassant].
    by rewrite assign_future_twice.
  - rewrite (createEnPassantState_push move _ _) by done.
    by rewrite (createEnPassantState_overwrite _ _ _ (global (state move)) []
                  (SCenpassant current future)).
Qed.

End JournalFacts.

(** ** Properties of the direction helpers *)

Section ArrowsFacts.

Local Ltac cases_on_signs :=
  repeat match goal with
  | |- context [Z.ltb ?a ?b] => destruct (Z.ltb_spec a b)
  | |- context [Z.eqb ?a ?b] => destruct (Z.eqb_spec a b)
  | |- context [Z.gtb ?a ?b] =>
      rewrite (Z.gtb_ltb a b); destruct (Z.ltb_spec b a)
  end; simpl.

(** X10. [absoluteValueOfDirection] picks, of a direction and its
    opposite, the one that points to the right, or straight up when the
    direction is vertical: the result is the direction or its opposite, has
    [dx > 0] or [dx = 0] and [dy >= 0], and is left as it is by a second
    call. *)
Theorem absoluteValueOfDirection_normalises (direction : Coords) :
  (absoluteValueOfDirection direction = direction
   ∨ absoluteValueOfDirection direction = oppositeDirection direction)
  ∧ (0 < (absoluteValueOfDirection direction).1
     ∨ (absoluteValueOfDirection direction).1 = 0
       ∧ 0 ≤ (absoluteValueOfDirection direction).2)
  ∧ absoluteValueOfDirection (absoluteValueOfDirection direction)
    = absoluteValueOfDirection direction.
Proof.
  destruct direction as [dx dy].
  unfold absoluteValueOfDirection, oppositeDirection. simpl.
  destruct (Z.ltb_spec dx 0) as [Hx|Hx]; simpl.
  - split_and!.
    + right. f_equal; lia.
    + left. lia.
    + cases_on_signs; first [done | lia | f_equal; lia].
  - destruct (Z.eqb_spec dx 0) as [Hx0|Hx0]; simpl;
      [destruct (Z.ltb_spec dy 0) as [Hy|Hy]; simpl|].
    + split_and!.
      * right. f_equal; lia.
      * right. simpl. lia.
      * cases_on_signs; first [done | lia | f_equal; lia].
    + split_and!.
      * by left.
      * right. simpl. lia.
      * cases_on_signs; first [done | lia | f_equal; lia].
    + split_and!.
      * by left.
      * left. simpl. lia.
      * cases_on_signs; first [done | lia | f_equal; lia].
Qed.

(** X11. A direction and its opposite have the same absolute value, so
    the two arrows of one slide line, left and right, are looked up under
    one key. *)
Theorem absoluteValueOfDirection_opposite (direction : Coords) :
  absoluteValueOfDirection (oppositeDirection direction)
  = absoluteValueOfDirection direction.
Proof.
  destruct direction as [dx dy].
  unfold absoluteValueOfDirection, oppositeDirection. simpl.
  cases_on_signs; first [lia | f_equal; lia].
Qed.

(** X12. Whether a direction is hippogonal does not depend on its
    orientation: the opposite direction, the absolute value of the direction
    and the direction with its two coordinates exchanged are classified as
    the direction is. *)
Theorem isDirectionHippogonal_orientation (direction : Coords) :
  isDirectionHippogonal (oppositeDirection direction)
  = isDirectionHippogonal direction
  ∧ isDirectionHippogonal (absoluteValueOfDirection direction)
    = isDirectionHippogonal direction
  ∧ isDirectionHippogonal (direction.2, direction.1)
    = isDirectionHippogonal direction.
Proof.
  destruct direction as [dx dy].
  unfold isDirectionHippogonal, absoluteValueOfDirection, oppositeDirection.
  simpl. split_and!.
  - cases_on_signs; first [done | lia].
  - destruct ((dx <? 0) || (dx =? 0) && (dy <? 0));
      cases_on_signs; first [done | lia].
  - cases_on_signs; first [done | lia].
Qed.

(** X13. [isDirectionHippogonal] answers false exactly for the steps along
    an axis (a zero coordinate) and for the four steps with both
    coordinates 1 or -1.  A longer step along a diagonal, such as [[2,2]],
    counts as hippogonal; a longer step along an axis, such as [[2,0]], does
    not. *)
Theorem isDirectionHippogonal_classifies (dx dy k : Z) :
  (isDirectionHippogonal (dx, dy) = false
   ↔ dx = 0 ∨ dy = 0 ∨ (Z.abs dx = 1 ∧ Z.abs dy = 1))
  ∧ isDirectionHippogonal (k, k) = (1 <? Z.abs k)
  ∧ isDirectionHippogonal (k, - k) = (1 <? Z.abs k)
  ∧ isDirectionHippogonal (k, 0) = false
  ∧ isDirectionHippogonal (0, k) = false.
Proof.
  unfold isDirectionHippogonal. split_and!.
  - cases_on_signs; split; first [done | lia | intros _; lia].
  - cases_on_signs; first [done | lia].
  - cases_on_signs; first [done | lia].
  - cases_on_signs; first [done | lia].
  - cases_on_signs; first [done | lia].
Qed.

(** X14. [doesTypeHaveDirection] works with directions in the negative-x
    direction: a type can move along [[-dx,-dy]] exactly when it can move
    along [[dx,dy]], whatever the movesets and the key function are. *)
Theorem doesTypeHaveDirection_opposite {SlideLimit : Type}
    (getPieceMoveset : string → Moveset SlideLimit)
    (getKeyFromCoords : Coords → string)
    (type : string) (direction : Coords) :
  doesTypeHaveDirection getPieceMoveset getKeyFromCoords type
    (oppositeDirection direction)
  = doesTypeHaveDirection getPieceMoveset getKeyFromCoords type direction.
Proof.
  unfold doesTypeHaveDirection.
  destruct (sliding (getPieceMoveset type)); [|done].
  assert (absoluteValueOfDirection (oppositeDirection direction)
          = absoluteValueOfDirection direction) as ->; [|done].
  destruct direction as [dx dy].
  unfold absoluteValueOfDirection, oppositeDirection. simpl.
  cases_on_signs; first [lia | f_equal; lia].
Qed.

End ArrowsFacts.


(** ** The properties on concrete moves *)

Section Scenarios.

Import Sample.

(** Scenario 1: a check record, false to [[4,5]]. *)
Example scenario_check :
  let move : TMove :=
    mkMove (mkMoveState [SCcheck InCheckFalse (InCheckCoords [(4, 5)])] []) tt in
  gf_inCheck (applyMove gf0 move true false) = InCheckCoords [(4, 5)]
  ∧ gf_inCheck (applyMove (applyMove gf0 move true false) move false false)
    = InCheckFalse.
Proof. split; reflexivity. Qed.

(** Scenario 4: a moverulestate record, 3 to 0. *)
Example scenario_moverule :
  let move : TMove := mkMove (mkMoveState [] [SCmoverulestate 3 0]) tt in
  gf_moveRuleState (applyMove gf0 move true true) = 0
  ∧ gf_moveRuleState (applyMove (applyMove gf0 move true true) move false true)
    = 3.
Proof. split; reflexivity. Qed.

(** The round-trip law needs every [current] to be the pre-move value.  Two
    check records of one move whose [current]s are chained are replayed
    backward in insertion order too, so the check indicator ends at the
    [current] of the second record. *)
Example chained_check_records_end_at_second_current :
  gf_inCheck
    (applyMove
       (applyMove (run_calls calls_chained (move0, gf0)).2
                  (run_calls calls_chained (move0, gf0)).1 true true)
       (run_calls calls_chained (move0, gf0)).1 false true)
  = InCheckCoords [(4, 5)].
Proof. reflexivity. Qed.

(** C1 on the calls of [calls_merged] against [gf0]: the second
    en-passant call is merged into the record of the first, which keeps the
    [current] of [gf0]. *)
Lemma applyMove_round_trip_witness :
  fresh move0
  ∧ Forall (record_matches gf0) (records (run_calls calls_merged (move0, gf0)).1)
  ∧ applyMove
      (applyMove (run_calls calls_merged (move0, gf0)).2
                 (run_calls calls_merged (move0, gf0)).1 true true)
      (run_calls calls_merged (move0, gf0)).1 false true
    = gf0.
Proof.
  assert (fresh move0) as Hfresh by (split; reflexivity).
  assert (Forall (record_matches gf0)
                 (records (run_calls calls_merged (move0, gf0)).1)) as Hrec.
  { repeat constructor. }
  split; [exact Hfresh|]. split; [exact Hrec|].
  exact (applyMove_round_trip gf0 move0 calls_merged Hfresh Hrec).
Defined.


(** C5 on a move with two local and three global records. *)
Lemma applyMove_local_scope_isolation_witness :
  Forall (λ c, local_kind c = true) (local (state move_both))
  ∧ global (state move_both) ≠ []
  ∧ gf_enpassant (applyMove gf0 move_both true false) = None
  ∧ gf_specialRights (applyMove gf0 move_both true false) = {["5,1"%string]}
  ∧ gf_moveRuleState (applyMove gf0 move_both true false) = 3.
Proof.
  assert (Forall (λ c : TChange, local_kind c = true)
                 (local (state move_both))) as Hkinds.
  { repeat constructor. }
  destruct (applyMove_local_scope_isolation gf0 move_both Hkinds)
    as (Hep & Hsr & Hmr & _).
  split; [exact Hkinds|]. split; [discriminate|].
  split; [exact Hep|]. split; [exact Hsr|exact Hmr].
Defined.

(** C9: a check record leaves the right of square "5,1" alone. *)
Lemma applyState_writes_own_slot_only_witness :
  SlotRight "5,1" ≠ slot_of (SCcheck InCheckFalse (InCheckCoords [(4, 5)]) : TChange)
  ∧ slot_agree (SlotRight "5,1")
      (applyState gf0 (SCcheck InCheckFalse (InCheckCoords [(4, 5)])) true) gf0
  ∧ gf_rest (applyMove gf0 move_both false true) = gf_rest gf0.
Proof.
  assert (SlotRight "5,1"
          ≠ slot_of (SCcheck InCheckFalse (InCheckCoords [(4, 5)]) : TChange))
    as Hne by discriminate.
  destruct (applyState_writes_own_slot_only gf0
              (SCcheck InCheckFalse (InCheckCoords [(4, 5)])) move_both
              false true (SlotRight "5,1") Hne)
    as (Hslot & _ & Hrest & _).
  split; [exact Hne|]. split; [|exact Hrest].
  exact (proj1 (applyState_writes_own_slot_only gf0
                  (SCcheck InCheckFalse (InCheckCoords [(4, 5)])) move_both
                  true true (SlotRight "5,1") Hne)).
Defined.

(** C3 on a move populated by [calls0], which records one en-passant
    change from [undefined]: the record keeps that [current]. *)
Lemma enpassant_records_coalesce_witness :
  fresh move0
  ∧ Some 1%positive ≠ Some 2%positive
  ∧ Some 2%positive ≠ Some 3%positive
  ∧ Some 1%positive ≠ Some 3%positive
  ∧ enpassant_records
      (global (state (createEnPassantState
                        (createEnPassantState
                           (run_calls calls0 (move0, gf0)).1
                           (Some 1%positive) (Some 2%positive))
                        (Some 2%positive) (Some 3%positive))))
    = [SCenpassant None (Some 3%positive)].
Proof.
  assert (fresh move0) as Hfresh by (split; reflexivity).
  assert (Some 1%positive ≠ Some 2%positive) as H12 by discriminate.
  assert (Some 2%positive ≠ Some 3%positive) as H23 by discriminate.
  assert (Some 1%positive ≠ Some 3%positive) as H13 by discriminate.
  split; [exact Hfresh|]. split; [exact H12|].
  split; [exact H23|]. split; [exact H13|].
  refine (proj2 (proj2 (enpassant_records_coalesce move0 gf0 calls0
            (Some 1%positive) (Some 2%positive) (Some 3%positive)
            Hfresh H12 H23 H13)) None (Some 1%positive) _).
  reflexivity.
Defined.

(** C3 as stated fails on a move that already holds an enpassant record:
    [move_with_enpassant] is populated by one factory call, and after the
    calls with [A], [B], [C] the three distinct objects 1, 2, 3 its only
    enpassant record has [current] [undefined], not [A]. *)
Lemma enpassant_coalesce_current_counterexample :
  move_with_enpassant = (run_calls [CreateEnPassant None (Some 2%positive)]
                                   (move0, gf0)).1
  ∧ enpassant_records
      (global (state (createEnPassantState
                        (createEnPassantState move_with_enpassant
                           (Some 1%positive) (Some 2%positive))
                        (Some 2%positive) (Some 3%positive))))
    = [SCenpassant None (Some 3%positive)]
  ∧ enpassant_records
      (global (state (createEnPassantState
                        (createEnPassantState move_with_enpassant
                           (Some 1%positive) (Some 2%positive))
                        (Some 2%positive) (Some 3%positive))))
    ≠ [SCenpassant (Some 1%positive) (Some 3%positive)].
Proof. split; [reflexivity|]. split; [reflexivity|discriminate]. Qed.

(** C2 as stated fails on the fresh move: with [E] the object
    [{ square: [3,6], pawn: [3,5] }], recording [undefined → E] and then
    [E → undefined] leaves the record [{ current: undefined, future:
    undefined }] in [move.state.global]. *)
Lemma enpassant_stray_record_counterexample :
  deref heap0 (Some 1%positive) = Some (mkEnPassant (3, 6) (3, 5))
  ∧ global (state (createEnPassantState
                     (createEnPassantState move0 None (Some 1%positive))
                     (Some 1%positive) None))
    = [SCenpassant None None]
  ∧ enpassant_records
      (global (state (createEnPassantState
                        (createEnPassantState move0 None (Some 1%positive))
                        (Some 1%positive) None)))
    ≠ [].
Proof. split; [reflexivity|]. split; [reflexivity|discriminate]. Qed.

(** C10 on the objects 1 and 2 of [heap0] and the fresh move. *)
Lemma enpassant_skip_is_by_reference_witness :
  1%positive ≠ 2%positive
  ∧ heap0 !! 1%positive = Some (mkEnPassant (3, 6) (3, 5))
  ∧ heap0 !! 2%positive = Some (mkEnPassant (3, 6) (3, 5))
  ∧ global (state (createEnPassantState move0
                     (Some 1%positive) (Some 2%positive)))
    = [SCenpassant (Some 1%positive) (Some 2%positive)].
Proof.
  assert (1%positive ≠ 2%positive) as Hne by discriminate.
  assert (heap0 !! 1%positive = Some (mkEnPassant (3, 6) (3, 5))) as H1
    by reflexivity.
  assert (heap0 !! 2%positive = Some (mkEnPassant (3, 6) (3, 5))) as H2
    by reflexivity.
  split; [exact Hne|]. split; [exact H1|]. split; [exact H2|].
  refine (proj1 (proj2 (proj2 (enpassant_skip_is_by_reference heap0 move0
            1%positive 2%positive _ Hne H1 H2))) _).
  constructor.
Defined.

(** C10 as stated fails on a move that already holds an enpassant record:
    the objects 1 and 2 of [heap0] are distinct and have the same contents,
    and the call with them pushes nothing to [move.state.global]. *)
Lemma enpassant_no_append_counterexample :
  1%positive ≠ 2%positive
  ∧ heap0 !! 1%positive = heap0 !! 2%positive
  ∧ is_Some (heap0 !! 1%positive)
  ∧ global (state move_with_enpassant) = [SCenpassant None (Some 2%positive)]
  ∧ global (state (createEnPassantState move_with_enpassant
                     (Some 1%positive) (Some 2%positive)))
    = global (state move_with_enpassant)
  ∧ length (global (state (createEnPassantState move_with_enpassant
                             (Some 1%positive) (Some 2%positive))))
    = length (global (state move_with_enpassant)).
Proof.
  split; [discriminate|]. split; [reflexivity|]. split; [by eexists|].
  split; [reflexivity|]. split; reflexivity.
Qed.


(** X2 on the move of [calls_chained], undone: the check indicator is the
    [current] of the second check record. *)
Lemma applyMove_last_record_decides_witness :
  records (run_calls calls_chained (move0, gf0)).1
  = [SCcheck InCheckFalse (InCheckCoords [(4, 5)])]
    ++ SCcheck (InCheckCoords [(4, 5)]) (InCheckCoords [(0, 0)]) :: []
  ∧ (SlotInCheck ∉ slot_of <$> ([] : list TChange))
  ∧ gf_inCheck (applyMove gf0 (run_calls calls_chained (move0, gf0)).1
                          false true)
    = InCheckCoords [(4, 5)].
Proof.
  assert (records (run_calls calls_chained (move0, gf0)).1
          = [SCcheck InCheckFalse (InCheckCoords [(4, 5)])]
            ++ SCcheck (InCheckCoords [(4, 5)]) (InCheckCoords [(0, 0)]) :: [])
    as Hrec by reflexivity.
  assert (SlotInCheck ∉ slot_of <$> ([] : list TChange)) as Hlast
    by apply not_elem_of_nil.
  split; [exact Hrec|]. split; [exact Hlast|].
  exact (applyMove_last_record_decides gf0
           (run_calls calls_chained (move0, gf0)).1
           (SCcheck (InCheckCoords [(4, 5)]) (InCheckCoords [(0, 0)]))
           _ _ false Hrec Hlast).
Defined.

(** X3.  Undoing on [gf0] the move of [calls_counter_twice], whose two
    records remember the counter of [gf0] and announce different counters;
    redoing [move_both] on its own forward replay. *)
Lemma applyMove_on_matching_gamefile_is_identity_witness :
  Forall (record_matches gf0)
         (records (run_calls calls_counter_twice (move0, gf0)).1)
  ∧ applyMove gf0 (run_calls calls_counter_twice (move0, gf0)).1 false true
    = gf0
  ∧ Forall (future_matches (applyMove gf0 move_both true true))
           (records move_both)
  ∧ applyMove (applyMove gf0 move_both true true) move_both true true
    = applyMove gf0 move_both true true.
Proof.
  assert (Forall (record_matches gf0)
                 (records (run_calls calls_counter_twice (move0, gf0)).1))
    as Hcur.
  { repeat constructor. }
  assert (Forall (future_matches (applyMove gf0 move_both true true))
                 (records move_both)) as Hfut.
  { repeat constructor. }
  split; [exact Hcur|].
  split.
  { exact (proj1 (applyMove_on_matching_gamefile_is_identity gf0 gf0
                    (run_calls calls_counter_twice (move0, gf0)).1 true)
                 Hcur). }
  split; [exact Hfut|].
  exact (proj2 (applyMove_on_matching_gamefile_is_identity gf0
                  (applyMove gf0 move_both true true) move_both true)
               Hfut).
Defined.

(** X4 on [move_both], redone. *)
Lemma applyMove_global_records_keep_local_properties_witness :
  Forall (λ c, global_kind c = true) (global (state move_both))
  ∧ gf_inCheck (applyMove gf0 move_both true true)
    = gf_inCheck (applyMove gf0 move_both true false)
  ∧ gf_attackers (applyMove gf0 move_both true true)
    = gf_attackers (applyMove gf0 move_both true false).
Proof.
  assert (Forall (λ c : TChange, global_kind c = true)
                 (global (state move_both))) as Hkinds.
  { repeat constructor. }
  split; [exact Hkinds|].
  exact (applyMove_global_records_keep_local_properties gf0 move_both true
           Hkinds).
Defined.

(** X6 on the calls of [calls0] against [gf0]. *)
Lemma run_calls_gamefile_is_local_replay_witness :
  fresh move0
  ∧ (run_calls calls0 (move0, gf0)).2
    = applyMove gf0 (run_calls calls0 (move0, gf0)).1 true false.
Proof.
  assert (fresh move0) as Hfresh by (split; reflexivity).
  split; [exact Hfresh|].
  exact (run_calls_gamefile_is_local_replay gf0 move0 calls0 Hfresh).
Defined.

(** X7 on the calls of [calls0] against [gf0]. *)
Lemma run_calls_keeps_kinds_apart_witness :
  fresh move0
  ∧ Forall (λ c, local_kind c = true)
           (local (state (run_calls calls0 (move0, gf0)).1))
  ∧ Forall (λ c, global_kind c = true)
           (global (state (run_calls calls0 (move0, gf0)).1)).
Proof.
  assert (fresh move0) as Hfresh by (split; reflexivity).
  split; [exact Hfresh|].
  exact (run_calls_keeps_kinds_apart move0 gf0 calls0 Hfresh).
Defined.

(** X8 on three en-passant changes in a row, 1 to 2, 2 to 2 (skipped) and
    3 to [undefined]: one record, from 1 to [undefined]. *)
Lemma run_calls_enpassant_first_current_last_future_witness :
  fresh move0
  ∧ enpassant_records
      (global (state (run_calls
                        [CreateEnPassant (Some 1%positive) (Some 2%positive);
                         CreateMoveRule 3 0;
                         CreateEnPassant (Some 2%positive) (Some 2%positive);
                         CreateEnPassant (Some 3%positive) None]
                        (move0, gf0)).1))
    = [SCenpassant (Some 1%positive) None].
Proof.
  assert (fresh move0) as Hfresh by (split; reflexivity).
  split; [exact Hfresh|].
  exact (run_calls_enpassant_first_current_last_future move0 gf0
           [CreateEnPassant (Some 1%positive) (Some 2%positive);
            CreateMoveRule 3 0;
            CreateEnPassant (Some 2%positive) (Some 2%positive);
            CreateEnPassant (Some 3%positive) None] Hfresh).
Defined.

End Scenarios.
